(** * useFetch: the request coordinator of react-simple-fetch-api

    A shallow embedding of [src/index.ts].  The hook keeps two cells, the
    [useState] cell holding [{data, loading, error}] and the [useRef] cell
    holding the current [AbortController].  An [async] function runs
    synchronously up to its [await] and is resumed when the awaited promise
    settles, so [execute] is split in two: [execute_start] (lines 119-135, up
    to the call of [apiFetch]) and [execute_resume] (lines 135-143, from the
    settlement of the transport promise to [return result]).  Everything the
    hook does to the outside (calls of [abort()], calls of [apiFetch], the
    promises it hands back) is recorded in the world so that it can be
    observed. *)

From stdpp Require Import gmap strings list fin_maps.

(** ** Values of the collaborating library [simple-fetch-api] *)

(** Modelled from the spec: the declaration of [ApiError] lives in the package
    [simple-fetch-api], outside this repository; section 6 describes it as a
    structured error, a message plus an optional code or status. *)
Record ApiError : Type := mkApiError {
  message : string;
  status : option nat;
}.

(** [ApiResult<T>]: the value an [apiFetch] promise is fulfilled with,
    discriminated by its field [ok]. *)
Inductive ApiResult (T : Type) : Type :=
| Ok (data : T)
| Err (error : ApiError).
Arguments Ok {T} data.
Arguments Err {T} error.

(** Property values of an options object.  [JSignal c] is the [signal] of
    the [AbortController] number [c]; a key may be present and hold
    [undefined], as [Partial<ApiFetchOptions>] allows. *)
Inductive JsValue : Type :=
| JUndefined
| JString (s : string)
| JHeaders (h : list (string * string))
| JSignal (c : nat).

(** An options object ([ApiFetchOptions], or a [Partial] of it): its own
    enumerable properties. *)
Abbreviation Options := (gmap string JsValue).

(** Object spread [{...acc, ...o}]: every own property of [o] is copied
    over [acc]; spreading [undefined] copies nothing. *)
Definition spread (acc : Options) (o : option Options) : Options :=
  match o with
  | Some props => props ∪ acc
  | None => acc
  end.

(** How a promise settles. *)
Inductive Settlement (A : Type) : Type :=
| Fulfilled (value : A)
| Rejected (reason : string).
Arguments Fulfilled {A} value.
Arguments Rejected {A} reason.

(** ** The hook *)

(** [UseFetchState<T>] (lines 13-20); [null] is [None]. *)
Record UseFetchState (T : Type) : Type := mkState {
  data : option T;
  loading : bool;
  error : option ApiError;
}.
Arguments mkState {T} data loading error.
Arguments data {T} _.
Arguments loading {T} _.
Arguments error {T} _.

(** The argument of [setState]: a new value or an updater of the previous
    one. *)
Inductive SetStateAction (T : Type) : Type :=
| Value (s : UseFetchState T)
| Updater (f : UseFetchState T -> UseFetchState T).
Arguments Value {T} s.
Arguments Updater {T} f.

(** One mounted instance of the hook together with what it has done so far.
    An invocation of [execute] and the [AbortController] it creates share
    their number: the [n]-th controller allocated belongs to the [n]-th
    invocation. *)
Record World (T : Type) : Type := mkWorld {
  (** the [useState] cell (line 99) *)
  state : UseFetchState T;
  (** the [useRef] cell (line 109) *)
  abortControllerRef : option nat;
  (** number of [AbortController]s allocated so far *)
  controllers : nat;
  (** every call of [abort()], oldest first, by controller *)
  aborts : list nat;
  (** every call of [execute], oldest first, with its argument *)
  invocations : list (nat * option Options);
  (** every call of [apiFetch], oldest first, with its argument *)
  requests : list (nat * Options);
  (** invocations suspended at the [await] of line 135 *)
  awaiting : list nat;
  (** how the promise returned by an invocation has settled *)
  promises : gmap nat (Settlement (ApiResult T));
}.
Arguments mkWorld {T}.
Arguments state {T} _.
Arguments abortControllerRef {T} _.
Arguments controllers {T} _.
Arguments aborts {T} _.
Arguments invocations {T} _.
Arguments requests {T} _.
Arguments awaiting {T} _.
Arguments promises {T} _.

(** What can happen to a mounted hook: the host calls [execute] or [reset],
    the transport promise of invocation [c] settles, or the effect's cleanup
    runs (unmount). *)
Inductive Event (T : Type) : Type :=
| Execute (overrideOptions : option Options)
| Settle (c : nat) (s : Settlement (ApiResult T))
| Reset
| Cleanup.
Arguments Execute {T} overrideOptions.
Arguments Settle {T} c s.
Arguments Reset {T}.
Arguments Cleanup {T}.

Section useFetch.
Context {T : Type}.
Variable initialOptions : Options.

Implicit Types (w : World T) (c : nat) (result : ApiResult T).

(** The state of line 99-103, also written by [reset]. *)
Definition idle : UseFetchState T := mkState None false None.

(** The world right after the first render, before any effect. *)
Definition initial : World T :=
  mkWorld idle None 0 [] [] [] [] ∅.

(** [setState(action)]. Updates are applied in the order they are issued,
    an updater receiving the state left by the update before it. *)
Definition setState (action : SetStateAction T) w : World T :=
  let next :=
    match action with
    | Value s => s
    | Updater f => f (state w)
    end in
  mkWorld next (abortControllerRef w) (controllers w) (aborts w)
          (invocations w) (requests w) (awaiting w) (promises w).

(** [controller.abort()]. *)
Definition abort c w : World T :=
  mkWorld (state w) (abortControllerRef w) (controllers w) (aborts w ++ [c])
          (invocations w) (requests w) (awaiting w) (promises w).

(** [if (abortControllerRef.current) abortControllerRef.current.abort()],
    lines 121-123 and 166-168. *)
Definition abort_current w : World T :=
  match abortControllerRef w with
  | Some c => abort c w
  | None => w
  end.

(** [abortControllerRef.current = new AbortController()], line 125;
    returns the number of the new controller. *)
Definition new_controller w : nat * World T :=
  let c := controllers w in
  (c, mkWorld (state w) (Some c) (S c) (aborts w)
              (invocations w) (requests w) (awaiting w) (promises w)).

(** The object literal of lines 129-133. *)
Definition merge_options (overrideOptions : option Options) c : Options :=
  <["signal" := JSignal c]>
    (spread (spread ∅ (Some initialOptions)) overrideOptions).

(** [apiFetch(options)] is called and the invocation suspends on the
    promise it returns. *)
Definition call_apiFetch c (options : Options) w : World T :=
  mkWorld (state w) (abortControllerRef w) (controllers w) (aborts w)
          (invocations w) (requests w ++ [(c, options)])
          (c :: awaiting w) (promises w).

(** Entry of [execute]: the call is recorded under the number of the
    controller it is about to create. *)
Definition enter_execute (overrideOptions : option Options) w : World T :=
  mkWorld (state w) (abortControllerRef w) (controllers w) (aborts w)
          (invocations w ++ [(controllers w, overrideOptions)])
          (requests w) (awaiting w) (promises w).

(** [execute], lines 119-135: from the call to the [await].  Line 132 reads
    the ref that line 125 has just assigned, hence the same controller. *)
Definition execute_start (overrideOptions : option Options) w
  : nat * World T :=
  let w := enter_execute overrideOptions w in
  let w := abort_current w in
  let '(c, w) := new_controller w in
  let w :=
    setState (Updater (fun prev => mkState (data prev) true None)) w in
  let options := merge_options overrideOptions c in
  (c, call_apiFetch c options w).

(** The invocation leaves the [await]; its promise settles with [p]. *)
Definition finish c (p : Settlement (ApiResult T)) w : World T :=
  mkWorld (state w) (abortControllerRef w) (controllers w) (aborts w)
          (invocations w) (requests w)
          (filter (fun c' => c' ≠ c) (awaiting w))
          (<[c := p]> (promises w)).

(** [execute], lines 135-143: resumed with the settlement of the transport
    promise.  A rejected promise makes [await] throw; nothing catches it,
    so the promise of the invocation rejects with the same reason. *)
Definition execute_resume c (s : Settlement (ApiResult T)) w
  : Settlement (ApiResult T) * World T :=
  match s with
  | Rejected reason => (Rejected reason, finish c (Rejected reason) w)
  | Fulfilled result =>
      let w :=
        match result with
        | Ok d => setState (Value (mkState (Some d) false None)) w
        | Err e => setState (Value (mkState None false (Some e))) w
        end in
      (Fulfilled result, finish c (Fulfilled result) w)
  end.

(** [reset], lines 151-153. *)
Definition reset w : World T :=
  setState (Value (mkState None false None)) w.

(** The effect of lines 159-170, run at mount. *)
Definition effect (autoFetch : bool) w : World T :=
  if autoFetch then (execute_start None w).2 else w.

(** The cleanup the effect returns, lines 165-169. *)
Definition cleanup w : World T := abort_current w.

(** [useFetch(initialOptions, autoFetch = false)] at mount: first render,
    then the effect.  [None] is an omitted second argument. *)
Definition useFetch (autoFetch : option bool) : World T :=
  effect (default false autoFetch) initial.

(** A promise settles once: settling an invocation that is not suspended
    is not an event of the program and changes nothing. *)
Definition step (ev : Event T) w : World T :=
  match ev with
  | Execute overrideOptions => (execute_start overrideOptions w).2
  | Settle c s =>
      if decide (c ∈ awaiting w) then (execute_resume c s w).2 else w
  | Reset => reset w
  | Cleanup => cleanup w
  end.

Definition run (evs : list (Event T)) w : World T :=
  foldl (fun w ev => step ev w) w evs.

End useFetch.

(** ** Re-renders *)

(** What the host passes to [useFetch] at a render.  The options object is
    known by its identity: [useCallback(..., [initialOptions])] (line 145)
    compares it with the object of the previous render, not its
    properties. *)
Record Props : Type := mkProps {
  options_identity : nat;
  options_value : Options;
  autoFetch_arg : option bool;
}.

(** The dependencies [[autoFetch, execute]] of the effect (line 170) differ
    between two renders when [autoFetch], defaulted, differs, or when
    [execute] is a new function, which [useCallback] makes it exactly when
    [initialOptions] is another object. *)
Definition deps_changed (prev next : Props) : bool :=
  negb (bool_decide (default false (autoFetch_arg prev)
                     = default false (autoFetch_arg next)))
  || negb (bool_decide (options_identity prev = options_identity next)).

(** A later render of the mounted hook: when the dependencies of the effect
    have changed, the cleanup returned by the previous run of the effect
    runs, then the effect runs again, closed over the new [execute]. *)
Definition rerender {T} (prev next : Props) (w : World T) : World T :=
  if deps_changed prev next
  then effect (options_value next) (default false (autoFetch_arg next))
              (cleanup w)
  else w.

(** The life of a mounted hook as its host drives it: the events of [Event],
    and later renders with the props they pass. *)
Inductive Lifecycle (T : Type) : Type :=
| Act (ev : Event T)
| Render (next : Props).
Arguments Act {T} ev.
Arguments Render {T} next.

(** One step of that life, from the props of the latest render: an event
    reaches the [execute] of the latest render, closed over its options; a
    render replaces the props and may re-run the effect. *)
Definition lifecycle_step {T} (l : Lifecycle T) (pw : Props * World T)
  : Props * World T :=
  match l with
  | Act ev => (pw.1, step (options_value pw.1) ev pw.2)
  | Render next => (next, rerender pw.1 next pw.2)
  end.

Definition lifecycle {T} (ls : list (Lifecycle T)) (pw : Props * World T)
  : Props * World T :=
  foldl (fun pw l => lifecycle_step l pw) pw ls.

(** The first render with [props], and its effect. *)
Definition mount {T} (props : Props) : Props * World T :=
  (props, useFetch (options_value props) (autoFetch_arg props)).

(** The calls of [execute] over a life that starts after a render with
    [props]: those of the host, and one for every render that re-runs the
    effect with [autoFetch] true. *)
Fixpoint execute_calls {T} (props : Props) (ls : list (Lifecycle T)) : nat :=
  match ls with
  | [] => 0
  | Act (Execute _) :: ls => S (execute_calls props ls)
  | Act _ :: ls => execute_calls props ls
  | Render next :: ls =>
      (if deps_changed props next && default false (autoFetch_arg next)
       then 1 else 0)
      + execute_calls next ls
  end.

(** ** Vocabulary of the properties *)

Section vocabulary.
Context {T : Type}.

Implicit Types (w : World T) (c : nat) (result : ApiResult T).

(** The state an invocation writes when its transport promise is fulfilled
    with [result] (lines 137-141). *)
Definition settled_state result : UseFetchState T :=
  match result with
  | Ok d => mkState (Some d) false None
  | Err e => mkState None false (Some e)
  end.


(** The shape of the world every run maintains: the ref holds the last
    controller allocated, one controller is allocated per call of
    [execute], and suspended invocations carry numbers already handed
    out. *)
Definition well_formed w : Prop :=
  abortControllerRef w =
    match controllers w with 0 => None | S n => Some n end
  ∧ length (invocations w) = controllers w
  ∧ ∀ c, c ∈ awaiting w → c < controllers w.

(** In every state the hook writes, [data] or [error] is [null], and
    [error] is [null] while [loading]. *)
Definition coherent (st : UseFetchState T) : Prop :=
  (data st = None ∨ error st = None)
  ∧ (loading st = true → error st = None).

(** Invocation [c] has returned and its promise has settled with [p]. *)
Definition settled_for c (p : Settlement (ApiResult T)) w : Prop :=
  (c ∉ awaiting w) ∧ (c < controllers w) ∧ (promises w !! c = Some p).

(** The number of calls of [execute] in a sequence of events. *)
Fixpoint executes (evs : list (Event T)) : nat :=
  match evs with
  | [] => 0
  | Execute _ :: evs => S (executes evs)
  | _ :: evs => executes evs
  end.

(** The event respects the transport contract: no transport promise
    rejects. *)
Definition within_contract (ev : Event T) : Prop :=
  match ev with
  | Settle _ (Rejected _) => False
  | _ => True
  end.

(** The event is neither a fulfilled transport promise nor a [reset]. *)
Definition delivers_nothing (ev : Event T) : Prop :=
  match ev with
  | Settle _ (Fulfilled _) | Reset => False
  | _ => True
  end.

(** The request an invocation numbered [c] and called with
    [overrideOptions] hands to [apiFetch]. *)
Definition request_of (initialOptions : Options)
    (call : nat * option Options) : nat * Options :=
  (call.1, merge_options initialOptions call.2 call.1).

(** The log of requests is the log of calls, each call numbered in order
    and mapped to its own merged options. *)
Definition logs_agree (initialOptions : Options) w : Prop :=
  requests w = request_of initialOptions <$> invocations w
  ∧ (invocations w).*1 = seq 0 (controllers w).

(** [abort()] is only ever called on a controller that exists. *)
Definition aborts_allocated w : Prop :=
  well_formed w ∧ ∀ c, c ∈ aborts w → c < controllers w.

(** While [loading] is true the installed controller belongs to a
    suspended invocation. *)
Definition loading_is_backed w : Prop :=
  loading (state w) = true →
  ∃ c, abortControllerRef w = Some c ∧ c ∈ awaiting w.

End vocabulary.

(** ** Concrete data for the examples *)

Definition users_options : Options :=
  {[ "url" := JString "/users/1"; "method" := JString "GET" ]}.

Definition aborted : ApiError := mkApiError "The operation was aborted" None.


(** [execute()] called twice, neither request settled: invocation 0 is
    superseded by invocation 1. *)
Definition two_in_flight : World nat :=
  run users_options [Execute None; Execute None]
      (useFetch users_options None).

(** One request, settled with the payload 7. *)
Definition loaded : World nat :=
  run users_options [Execute None; Settle 0 (Fulfilled (Ok 7))]
      (useFetch users_options None).

(** One request issued by hand, not yet settled. *)
Definition one_in_flight : World nat :=
  run users_options [Execute None] (useFetch users_options None).

(** Two renders that pass an options literal with the same properties: two
    objects. *)
Definition first_render : Props := mkProps 0 users_options None.
Definition second_render : Props := mkProps 1 users_options None.
Definition first_render_auto : Props := mkProps 0 users_options (Some true).
Definition second_render_auto : Props := mkProps 1 users_options (Some true).

(** ** Elementary facts about the operations *)

Section facts.
Context {T : Type}.
Variable initialOptions : Options.

Implicit Types (w : World T) (c : nat) (result : ApiResult T).
Implicit Types (s : Settlement (ApiResult T)) (evs : list (Event T)).

Lemma run_nil w : run initialOptions [] w = w.
Proof. reflexivity. Qed.

Lemma run_cons ev evs w :
  run initialOptions (ev :: evs) w
  = run initialOptions evs (step initialOptions ev w).
Proof. reflexivity. Qed.

(** Induction over runs. *)
Lemma run_preserves (P : World T -> Prop) :
  (∀ ev w, P w → P (step initialOptions ev w)) →
  ∀ evs w, P w → P (run initialOptions evs w).
Proof.
  intros Hstep evs. induction evs as [|ev evs IH]; intros w Hw.
  - exact Hw.
  - rewrite run_cons. apply IH, Hstep, Hw.
Qed.

(** [execute_start] in one piece. *)
Lemma execute_start_unfold o w :
  execute_start initialOptions o w
  = (controllers w,
     mkWorld (mkState (data (state w)) true None)
             (Some (controllers w)) (S (controllers w))
             (aborts w ++ option_list (abortControllerRef w))
             (invocations w ++ [(controllers w, o)])
             (requests w
                ++ [(controllers w,
                     merge_options initialOptions o (controllers w))])
             (controllers w :: awaiting w) (promises w)).
Proof.
  unfold execute_start, abort_current, enter_execute, new_controller,
    call_apiFetch, setState, abort; simpl.
  destruct (abortControllerRef w); simpl; [reflexivity |].
  now rewrite app_nil_r.
Qed.

(** [execute_resume] in one piece: the promise of the invocation settles
    the way the transport promise did, and the state is written if that
    was a fulfilment. *)
Lemma execute_resume_unfold c s w :
  execute_resume c s w
  = (s,
     mkWorld (match s with
              | Fulfilled result => settled_state result
              | Rejected _ => state w
              end)
             (abortControllerRef w) (controllers w) (aborts w)
             (invocations w) (requests w)
             (filter (fun c' => c' ≠ c) (awaiting w))
             (<[c := s]> (promises w))).
Proof. now destruct s as [[d|e]|reason]. Qed.

Lemma state_execute_start o w :
  state (execute_start initialOptions o w).2
  = mkState (data (state w)) true None.
Proof. now rewrite execute_start_unfold. Qed.

Lemma state_execute_resume c result w :
  state (execute_resume c (Fulfilled result) w).2 = settled_state result.
Proof. now rewrite execute_resume_unfold. Qed.

Lemma state_cleanup w : state (cleanup w) = state w.
Proof. unfold cleanup, abort_current. now destruct (abortControllerRef w). Qed.

Lemma step_settle_awaiting c s w :
  c ∈ awaiting w →
  step initialOptions (Settle c s) w = (execute_resume c s w).2.
Proof. intros Hc. simpl. now rewrite decide_True. Qed.

(** Every state a step can leave, in terms of the state before. *)
Lemma state_step ev w :
  state (step initialOptions ev w) = state w
  ∨ state (step initialOptions ev w) = mkState (data (state w)) true None
  ∨ (∃ result, state (step initialOptions ev w) = settled_state result)
  ∨ state (step initialOptions ev w) = idle.
Proof.
  destruct ev as [o|c [result|reason]| |]; simpl.
  - right; left. apply state_execute_start.
  - case_decide; [|now left].
    right; right; left. exists result. apply state_execute_resume.
  - case_decide; now left.
  - now do 3 right.
  - left. apply state_cleanup.
Qed.

Lemma well_formed_initial : well_formed (@initial T).
Proof. repeat split. intros c Hc; inversion Hc. Qed.

Lemma well_formed_execute_start o w :
  well_formed w → well_formed (execute_start initialOptions o w).2.
Proof.
  intros (Href & Hlen & Haw). rewrite execute_start_unfold.
  repeat split; simpl.
  - rewrite length_app. simpl. lia.
  - intros c [->|Hc]%elem_of_cons; [lia |].
    specialize (Haw c Hc). lia.
Qed.

Lemma well_formed_execute_resume c s w :
  well_formed w → well_formed (execute_resume c s w).2.
Proof.
  intros (Href & Hlen & Haw). rewrite execute_resume_unfold.
  repeat split; simpl; [exact Href | exact Hlen |].
  intros c' [_ Hc']%list_elem_of_filter. now apply Haw.
Qed.

Lemma well_formed_abort_current w :
  well_formed w → well_formed (abort_current w).
Proof.
  intros (Href & Hlen & Haw). unfold abort_current.
  destruct (abortControllerRef w) eqn:E;
    (repeat split; simpl; [congruence | exact Hlen | exact Haw]).
Qed.

Lemma well_formed_step ev w :
  well_formed w → well_formed (step initialOptions ev w).
Proof.
  intros Hw. destruct ev as [o|c s| |]; simpl.
  - now apply well_formed_execute_start.
  - case_decide; [now apply well_formed_execute_resume | exact Hw].
  - exact Hw.
  - now apply well_formed_abort_current.
Qed.

Lemma well_formed_useFetch autoFetch :
  well_formed (useFetch (T:=T) initialOptions autoFetch).
Proof.
  unfold useFetch, effect. destruct (default false autoFetch).
  - apply well_formed_execute_start, well_formed_initial.
  - apply well_formed_initial.
Qed.

Lemma well_formed_run autoFetch evs :
  well_formed (run initialOptions evs (useFetch (T:=T) initialOptions autoFetch)).
Proof.
  apply run_preserves; [apply well_formed_step | apply well_formed_useFetch].
Qed.

Lemma coherent_step ev w :
  coherent (state w) → coherent (state (step initialOptions ev w)).
Proof.
  intros Hw.
  destruct (state_step ev w) as [E|[E|[[result E]|E]]]; rewrite E.
  - exact Hw.
  - split; simpl; auto.
  - destruct result; split; simpl; auto; discriminate.
  - split; simpl; auto.
Qed.

Lemma coherent_useFetch autoFetch :
  coherent (state (useFetch (T:=T) initialOptions autoFetch)).
Proof.
  unfold useFetch, effect. destruct (default false autoFetch).
  - rewrite state_execute_start. split; simpl; auto.
  - split; simpl; auto.
Qed.

Lemma coherent_run autoFetch evs :
  coherent (state (run initialOptions evs (useFetch (T:=T) initialOptions autoFetch))).
Proof.
  apply (run_preserves (fun w => coherent (state w)));
    [apply coherent_step | apply coherent_useFetch].
Qed.

(** Once an invocation has returned, nothing touches its promise. *)
Lemma settled_for_resume c s w :
  well_formed w → c ∈ awaiting w →
  settled_for c s (execute_resume c s w).2.
Proof.
  intros (_ & _ & Haw) Hc. rewrite execute_resume_unfold.
  repeat split; simpl.
  - intros [Hne _]%list_elem_of_filter. now apply Hne.
  - now apply Haw.
  - apply lookup_insert_eq.
Qed.

Lemma settled_for_step c p ev w :
  settled_for c p w → settled_for c p (step initialOptions ev w).
Proof.
  intros (Hnot & Hlt & Hp). destruct ev as [o|c' s| |]; unfold step.
  - rewrite execute_start_unfold. repeat split; simpl; [| lia | exact Hp].
    intros [->|Hc]%elem_of_cons; [lia | now apply Hnot].
  - case_decide as Hc'; [| now repeat split].
    rewrite execute_resume_unfold. repeat split; simpl; [| exact Hlt |].
    + intros [_ Hc]%list_elem_of_filter. now apply Hnot.
    + rewrite lookup_insert_ne; [exact Hp |]. intros ->. now apply Hnot.
  - now repeat split.
  - unfold cleanup, abort_current.
    destruct (abortControllerRef w); now repeat split.
Qed.

Lemma settled_for_run c p evs w :
  settled_for c p w → settled_for c p (run initialOptions evs w).
Proof. apply run_preserves. intros ev w'. apply settled_for_step. Qed.

(** Two suspended invocations resolve one after the other: the state is
    the one the second resolution writes. *)
Lemma state_settle_two c1 c2 result1 result2 w :
  c1 ≠ c2 → c1 ∈ awaiting w → c2 ∈ awaiting w →
  state (run initialOptions
             [Settle c1 (Fulfilled result1); Settle c2 (Fulfilled result2)]
             w)
  = settled_state result2.
Proof.
  intros Hne H1 H2. rewrite !run_cons, run_nil.
  rewrite (step_settle_awaiting c1) by exact H1.
  rewrite step_settle_awaiting; [apply state_execute_resume |].
  rewrite execute_resume_unfold. simpl.
  apply list_elem_of_filter. split; [congruence | exact H2].
Qed.

(** Lookup in the object literal of lines 129-133. *)
Lemma lookup_merge_options o c k :
  merge_options initialOptions o c !! k
  = if decide (k = "signal") then Some (JSignal c)
    else match o ≫= (fun props => props !! k) with
         | Some v => Some v
         | None => initialOptions !! k
         end.
Proof.
  unfold merge_options. case_decide as Hk.
  - subst k. apply lookup_insert_eq.
  - rewrite lookup_insert_ne by congruence.
    unfold spread at 2. rewrite (right_id_L ∅ (∪)).
    destruct o as [props|]; simpl; [| now destruct (initialOptions !! k)].
    destruct (props !! k) as [v|] eqn:E.
    + now apply lookup_union_Some_l.
    + now apply lookup_union_r.
Qed.

End facts.

(** ** The properties of the coordinator *)

Section properties.
Context {T : Type}.
Variable initialOptions : Options.

Implicit Types (w : World T) (c : nat) (result : ApiResult T).
Implicit Types (s : Settlement (ApiResult T)) (evs : list (Event T)).

(** C1, as the code has it: when B is issued while A is suspended, B's
    start calls [abort()] on A's controller and installs its own; nothing
    compares a resolving invocation with the installed controller, so each
    of the two resolutions writes the state from its own result and the
    final state is the outcome of whichever resolves last. *)
Theorem last_resolution_wins oA oB resultA resultB w :
  let a := (execute_start initialOptions oA w).1 in
  let wA := (execute_start initialOptions oA w).2 in
  let b := (execute_start initialOptions oB wA).1 in
  let wB := (execute_start initialOptions oB wA).2 in
  a ≠ b
  ∧ abortControllerRef wB = Some b
  ∧ aborts wB = aborts wA ++ [a]
  ∧ state (run initialOptions
             [Settle b (Fulfilled resultB); Settle a (Fulfilled resultA)] wB)
    = settled_state resultA
  ∧ state (run initialOptions
             [Settle a (Fulfilled resultA); Settle b (Fulfilled resultB)] wB)
    = settled_state resultB.
Proof.
  intros a wA b wB. subst a wA b wB.
  rewrite !execute_start_unfold. cbn [fst snd].
  split; [simpl; lia |]. split; [reflexivity |]. split; [reflexivity |].
  split; apply state_settle_two; simpl; try lia; set_solver.
Qed.

(** C2, as the code has it: the state written at the start of every
    request is the previous state with [loading: true] and [error: null];
    [data] is carried over unchanged. *)
Theorem execute_start_state overrideOptions w :
  state (execute_start initialOptions overrideOptions w).2
  = mkState (data (state w)) true None.
Proof. apply state_execute_start. Qed.

(** C3: in every state reached from mount by any sequence of [execute]
    starts, transport settlements, [reset] calls and cleanups, [data] and
    [error] are not both present. *)
Theorem mutual_exclusion autoFetch evs :
  let st := state (run initialOptions evs
                       (useFetch (T:=T) initialOptions autoFetch)) in
  data st = None ∨ error st = None.
Proof. intros st. apply (coherent_run initialOptions autoFetch evs). Qed.

(** C4, as the code has it: in every reachable world the cleanup calls
    [abort()] exactly once, on the installed controller (that of the latest
    [execute]), as soon as [execute] has been called at all, whether or not
    a request is still suspended; it calls nothing only when [execute] was
    never called.  It writes no state, and being a total function it does
    not throw. *)
Theorem cleanup_aborts_installed autoFetch evs :
  let w := run initialOptions evs
               (useFetch (T:=T) initialOptions autoFetch) in
  state (cleanup w) = state w
  ∧ match abortControllerRef w with
    | Some n =>
        controllers w = S n ∧ aborts (cleanup w) = aborts w ++ [n]
    | None =>
        invocations w = [] ∧ awaiting w = []
        ∧ aborts (cleanup w) = aborts w
    end.
Proof.
  intros w.
  destruct (well_formed_run initialOptions autoFetch evs)
    as (Href & Hlen & Haw).
  fold w in Href, Hlen, Haw.
  split; [apply state_cleanup |].
  unfold cleanup, abort_current.
  destruct (abortControllerRef w) as [n|] eqn:E.
  - split; [| reflexivity].
    destruct (controllers w); [discriminate | congruence].
  - destruct (controllers w) eqn:Ec; [| discriminate].
    repeat split.
    + now apply nil_length_inv.
    + destruct (awaiting w) as [|c l]; [reflexivity |].
      specialize (Haw c ltac:(left)). lia.
Qed.

(** C5: [reset] writes the idle triple and nothing else: no [abort()] is
    called and the installed controller stays; on an idle hook it changes
    nothing at all. *)
Theorem reset_frame w :
  state (reset w) = idle
  ∧ aborts (reset w) = aborts w
  ∧ abortControllerRef (reset w) = abortControllerRef w
  ∧ awaiting (reset w) = awaiting w
  ∧ requests (reset w) = requests w
  ∧ (state w = idle → reset w = w).
Proof.
  repeat split. intros Hidle. destruct w as [st r n a i q aw p].
  simpl in Hidle. subst st. reflexivity.
Qed.

(** C6: in every reachable world, for every suspended invocation [c],
    installed or superseded, the promise [execute] returned for [c] settles
    with what the transport promise of [c] settled with, and keeps that
    value whatever happens afterwards. *)
Theorem return_decoupling autoFetch evs c s evs' :
  let w := run initialOptions evs
               (useFetch (T:=T) initialOptions autoFetch) in
  c ∈ awaiting w →
  (execute_resume c s w).1 = s
  ∧ promises (run initialOptions evs'
                  (step initialOptions (Settle c s) w)) !! c = Some s.
Proof.
  intros w Hc. split; [now rewrite execute_resume_unfold |].
  rewrite step_settle_awaiting by exact Hc.
  apply (settled_for_run initialOptions c s evs').
  apply settled_for_resume; [| exact Hc].
  apply well_formed_run.
Qed.

(** C7: mounting with [autoFetch] true calls [execute] exactly once, with
    no argument, hence [apiFetch] once with the initial options and the
    signal; mounting with [autoFetch] false or omitted calls neither. *)
Theorem auto_fetch :
  invocations (useFetch (T:=T) initialOptions (Some true)) = [(0, None)]
  ∧ requests (useFetch (T:=T) initialOptions (Some true))
    = [(0, <["signal" := JSignal 0]> initialOptions)]
  ∧ invocations (useFetch (T:=T) initialOptions (Some false)) = []
  ∧ requests (useFetch (T:=T) initialOptions (Some false)) = []
  ∧ invocations (useFetch (T:=T) initialOptions None) = []
  ∧ requests (useFetch (T:=T) initialOptions None) = [].
Proof.
  repeat split. unfold useFetch, effect. simpl.
  unfold merge_options, spread. now rewrite (right_id_L ∅ (∪)).
Qed.

(** C8: the object handed to [apiFetch] by an invocation holds, under
    every key but [signal], the override's property when the override has
    the key and the initial one otherwise; under [signal] it holds the
    signal of the controller the invocation has just created, whatever the
    initial options or the override hold there. *)
Theorem options_merge overrideOptions w k :
  let c := (execute_start initialOptions overrideOptions w).1 in
  let w' := (execute_start initialOptions overrideOptions w).2 in
  c = controllers w
  ∧ abortControllerRef w' = Some c
  ∧ requests w'
    = requests w ++ [(c, merge_options initialOptions overrideOptions c)]
  ∧ merge_options initialOptions overrideOptions c !! k
    = if decide (k = "signal") then Some (JSignal c)
      else match overrideOptions ≫= (fun props => props !! k) with
           | Some v => Some v
           | None => initialOptions !! k
           end.
Proof.
  intros c w'. subst c w'. rewrite execute_start_unfold. simpl.
  repeat split. apply lookup_merge_options.
Qed.


(** C10: in every reachable state, [error] is absent whenever [loading]
    is true. *)
Theorem loading_excludes_error autoFetch evs :
  let st := state (run initialOptions evs
                       (useFetch (T:=T) initialOptions autoFetch)) in
  loading st = true → error st = None.
Proof. intros st. apply (coherent_run initialOptions autoFetch evs). Qed.

(** The contract is needed: a rejected transport promise rejects the
    promise of the invocation and leaves the state as it was. *)
Lemma execute_resume_rejected c reason w :
  (execute_resume c (Rejected reason) w).1 = Rejected reason
  ∧ state (execute_resume c (Rejected reason) w).2 = state w.
Proof. now rewrite execute_resume_unfold. Qed.

End properties.

(** ** The properties on concrete runs *)

(** C1 at a concrete run: invocation 0 is superseded by invocation 1 and
    aborted; when its transport promise then settles with the abort failure
    the state changes, and after both have settled, 1 before 0, the state
    holds the failure of 0 and not the payload of 1. *)
Lemma superseded_resolution_overwrites_state :
  abortControllerRef two_in_flight = Some 1
  ∧ awaiting two_in_flight = [1; 0]
  ∧ aborts two_in_flight = [0]
  ∧ state two_in_flight = mkState None true None
  ∧ state (step users_options (Settle 0 (Fulfilled (Err aborted)))
                two_in_flight)
    = mkState None false (Some aborted)
  ∧ state (run users_options
               [Settle 1 (Fulfilled (Ok 7)); Settle 0 (Fulfilled (Err aborted))]
               two_in_flight)
    = mkState None false (Some aborted)
  ∧ state (run users_options
               [Settle 1 (Fulfilled (Ok 7)); Settle 0 (Fulfilled (Err aborted))]
               two_in_flight)
    ≠ settled_state (Ok 7).
Proof. repeat split; vm_compute; congruence. Qed.

(** C2 at a concrete run: a hook holding the payload 7 still holds it after
    the start of the next request. *)
Lemma execute_start_keeps_data :
  state loaded = mkState (Some 7) false None
  ∧ state (step users_options (Execute None) loaded)
    = mkState (Some 7) true None
  ∧ state (step users_options (Execute None) loaded)
    ≠ mkState None true None.
Proof. repeat split; vm_compute; congruence. Qed.

(** C4 at a concrete run: the only request has settled, nothing is
    suspended, and the cleanup still calls [abort()] on its controller. *)
Lemma cleanup_aborts_after_settlement :
  awaiting loaded = []
  ∧ aborts loaded = []
  ∧ aborts (step users_options Cleanup loaded) = [0].
Proof. repeat split. Qed.

(** C5 on the freshly mounted hook. *)
Lemma reset_frame_witness :
  state (@initial nat) = idle ∧ reset (@initial nat) = initial.
Proof.
  split; [reflexivity |].
  apply (reset_frame (T:=nat) initial). reflexivity.
Defined.

(** C6 for the superseded invocation 0 of [two_in_flight]. *)
Lemma return_decoupling_witness :
  0 ∈ awaiting two_in_flight
  ∧ abortControllerRef two_in_flight = Some 1
  ∧ (execute_resume 0 (Fulfilled (Err aborted)) two_in_flight).1
    = Fulfilled (Err aborted)
  ∧ promises
      (run users_options [Settle 1 (Fulfilled (Ok 7)); Reset]
           (step users_options (Settle 0 (Fulfilled (Err aborted)))
                 two_in_flight)) !! 0
    = Some (Fulfilled (Err aborted)).
Proof.
  assert (H : 0 ∈ awaiting two_in_flight)
    by (apply list_elem_of_further, list_elem_of_here).
  split; [exact H |]. split; [reflexivity |].
  exact (return_decoupling users_options None [Execute None; Execute None] 0
           (Fulfilled (Err aborted)) [Settle 1 (Fulfilled (Ok 7)); Reset] H).
Defined.


(** C10 right after an auto-fetching mount. *)
Lemma loading_excludes_error_witness :
  loading (state (run users_options []
                      (useFetch (T:=nat) users_options (Some true)))) = true
  ∧ error (state (run users_options []
                      (useFetch (T:=nat) users_options (Some true)))) = None.
Proof.
  split; [reflexivity |].
  apply (loading_excludes_error users_options (Some true) []). reflexivity.
Defined.

(** The scenario of the options merge: the override wins on [method], adds
    [body], and its [signal] is replaced. *)
Example merge_options_scenario :
  merge_options users_options
    (Some {[ "method" := JString "POST"; "body" := JString "{}";
             "signal" := JSignal 99 ]}) 3
  = {[ "url" := JString "/users/1"; "method" := JString "POST";
       "body" := JString "{}"; "signal" := JSignal 3 ]}.
Proof. apply map_eq. intros k. vm_compute. reflexivity. Qed.

(** The auto-fetch scenario: mounted with [autoFetch] true, the transport
    succeeds with the payload 7. *)
Example auto_fetch_scenario :
  state (run users_options [Settle 0 (Fulfilled (Ok 7))]
             (useFetch users_options (Some true)))
  = mkState (Some 7) false None.
Proof. reflexivity. Qed.

(** ** Further properties of the hook *)

Section further.
Context {T : Type}.
Variable initialOptions : Options.

Implicit Types (w : World T) (c : nat) (result : ApiResult T).
Implicit Types (s : Settlement (ApiResult T)) (evs : list (Event T)).

(** Induction over runs whose events all satisfy [Q]. *)
Lemma run_preserves_on (Q : Event T -> Prop) (P : World T -> Prop) :
  (∀ ev w, Q ev → P w → P (step initialOptions ev w)) →
  ∀ evs w, Forall Q evs → P w → P (run initialOptions evs w).
Proof.
  intros Hstep evs. induction evs as [|ev evs IH]; intros w Hall Hw.
  - exact Hw.
  - inversion Hall as [|? ? Hev Hevs]; subst.
    rewrite run_cons. apply IH; [exact Hevs |]. now apply Hstep.
Qed.

(** Only [execute] touches the logs of calls, the counter and the ref. *)
Lemma step_keeps_logs ev w :
  (∀ o, ev ≠ Execute o) →
  invocations (step initialOptions ev w) = invocations w
  ∧ requests (step initialOptions ev w) = requests w
  ∧ controllers (step initialOptions ev w) = controllers w
  ∧ abortControllerRef (step initialOptions ev w) = abortControllerRef w.
Proof.
  intros Hev. destruct ev as [o|c s| |]; unfold step.
  - now destruct (Hev o).
  - case_decide; [| now repeat split].
    rewrite execute_resume_unfold. now repeat split.
  - now repeat split.
  - unfold cleanup, abort_current.
    destruct (abortControllerRef w) eqn:E; now repeat split.
Qed.

Lemma requests_run evs w :
  length (requests (run initialOptions evs w))
  = length (requests w) + executes evs.
Proof.
  revert w. induction evs as [|ev evs IH]; intros w; [simpl; lia |].
  rewrite run_cons, IH. destruct ev as [o|c s| |].
  - unfold step. rewrite execute_start_unfold. simpl.
    rewrite length_app. simpl. lia.
  - destruct (step_keeps_logs (Settle c s) w) as (_ & -> & _); [done |].
    reflexivity.
  - reflexivity.
  - destruct (step_keeps_logs Cleanup w) as (_ & -> & _); [done |].
    reflexivity.
Qed.

Lemma logs_agree_execute_start o w :
  logs_agree initialOptions w →
  logs_agree initialOptions (execute_start initialOptions o w).2.
Proof.
  intros [Hreq Hinv]. rewrite execute_start_unfold.
  split; cbn [snd requests invocations controllers].
  - now rewrite fmap_app, Hreq.
  - now rewrite fmap_app, Hinv, seq_S.
Qed.

Lemma logs_agree_step ev w :
  logs_agree initialOptions w →
  logs_agree initialOptions (step initialOptions ev w).
Proof.
  intros Hw. destruct ev as [o|c s| |].
  - now apply logs_agree_execute_start.
  - destruct (step_keeps_logs (Settle c s) w) as (Hi & Hr & Hc & _); [done |].
    unfold logs_agree. now rewrite Hi, Hr, Hc.
  - exact Hw.
  - destruct (step_keeps_logs Cleanup w) as (Hi & Hr & Hc & _); [done |].
    unfold logs_agree. now rewrite Hi, Hr, Hc.
Qed.

Lemma logs_agree_useFetch autoFetch :
  logs_agree initialOptions (useFetch (T:=T) initialOptions autoFetch).
Proof.
  unfold useFetch, effect. destruct (default false autoFetch).
  - now apply logs_agree_execute_start.
  - now split.
Qed.

Lemma aborts_allocated_step ev w :
  aborts_allocated w → aborts_allocated (step initialOptions ev w).
Proof.
  intros [Hwf Hab]. split; [now apply well_formed_step |].
  destruct Hwf as (Href & _ & _).
  destruct ev as [o|c s| |]; unfold step.
  - rewrite execute_start_unfold. simpl.
    intros c [Hc|Hc]%elem_of_app; [specialize (Hab c Hc); lia |].
    rewrite Href in Hc. destruct (controllers w); simpl in Hc.
    + inversion Hc.
    + apply list_elem_of_singleton in Hc. lia.
  - case_decide; [| exact Hab]. now rewrite execute_resume_unfold.
  - exact Hab.
  - unfold cleanup, abort_current.
    destruct (abortControllerRef w) as [n|] eqn:E; [| exact Hab].
    simpl. intros c [Hc|Hc]%elem_of_app; [now apply Hab |].
    apply list_elem_of_singleton in Hc. subst c.
    destruct (controllers w); [discriminate |].
    injection Href as ->. lia.
Qed.

Lemma aborts_allocated_run autoFetch evs :
  aborts_allocated
    (run initialOptions evs (useFetch (T:=T) initialOptions autoFetch)).
Proof.
  apply run_preserves; [apply aborts_allocated_step |].
  split; [apply well_formed_useFetch |].
  unfold useFetch, effect. destruct (default false autoFetch).
  - rewrite execute_start_unfold. simpl. intros c Hc. inversion Hc.
  - intros c Hc. inversion Hc.
Qed.

Lemma loading_is_backed_step ev w :
  within_contract ev → loading_is_backed w →
  loading_is_backed (step initialOptions ev w).
Proof.
  intros Hev Hw. destruct ev as [o|c [result|reason]| |]; unfold step.
  - rewrite execute_start_unfold. intros _. exists (controllers w).
    split; [reflexivity | left].
  - case_decide; [| exact Hw].
    rewrite execute_resume_unfold. intros Hl. simpl in Hl.
    now destruct result.
  - destruct Hev.
  - intros Hl. discriminate Hl.
  - unfold cleanup, abort_current.
    destruct (abortControllerRef w) eqn:E; [| exact Hw].
    intros Hl. destruct (Hw Hl) as (c & Hc & Hin).
    exists c. split; [simpl; congruence | exact Hin].
Qed.

Lemma data_step ev w :
  delivers_nothing ev →
  data (state (step initialOptions ev w)) = data (state w).
Proof.
  intros Hev. destruct ev as [o|c [result|reason]| |]; unfold step.
  - now rewrite state_execute_start.
  - destruct Hev.
  - case_decide; [| reflexivity]. now rewrite execute_resume_unfold.
  - destruct Hev.
  - now rewrite state_cleanup.
Qed.

(** X2: after any run, the requests handed to [apiFetch] are, in order,
    those of the calls of [execute]: the [n]-th call, counted from 0, hands
    over the merge of the initial options with its own overrides and the
    signal of the [n]-th controller. *)
Theorem requests_follow_invocations autoFetch evs :
  let w := run initialOptions evs
               (useFetch (T:=T) initialOptions autoFetch) in
  requests w = request_of initialOptions <$> invocations w
  ∧ (invocations w).*1 = seq 0 (controllers w).
Proof.
  intros w. subst w.
  apply (run_preserves initialOptions (logs_agree initialOptions));
    [apply logs_agree_step | apply logs_agree_useFetch].
Qed.

(** X3: in every reachable world, a call of [execute] calls [abort()] on the
    controller of the previous call, suspended or long settled, and on
    nothing when it is the first call; the controller it creates has never
    been aborted when [apiFetch] receives its signal. *)
Theorem execute_aborts_previous autoFetch evs overrideOptions :
  let w := run initialOptions evs
               (useFetch (T:=T) initialOptions autoFetch) in
  let w' := (execute_start initialOptions overrideOptions w).2 in
  aborts w' = aborts w ++ match controllers w with 0 => [] | S n => [n] end
  ∧ abortControllerRef w' = Some (controllers w)
  ∧ controllers w ∉ aborts w'.
Proof.
  intros w w'.
  pose proof (aborts_allocated_run autoFetch evs) as [(Href & _ & _) Hab].
  fold w in Href, Hab.
  subst w'. rewrite execute_start_unfold. simpl.
  repeat split.
  - rewrite Href. now destruct (controllers w).
  - intros [Hc|Hc]%elem_of_app; [specialize (Hab _ Hc); lia |].
    rewrite Href in Hc. destruct (controllers w); simpl in Hc.
    + inversion Hc.
    + apply list_elem_of_singleton in Hc. lia.
Qed.

(** X4: [reset] does not detach a request in flight: when the transport
    promise of a suspended invocation is fulfilled after a [reset], the idle
    state is overwritten with the result. *)
Theorem reset_then_settle autoFetch evs c result :
  let w := run initialOptions evs
               (useFetch (T:=T) initialOptions autoFetch) in
  c ∈ awaiting w →
  state (step initialOptions Reset w) = idle
  ∧ state (run initialOptions [Reset; Settle c (Fulfilled result)] w)
    = settled_state result.
Proof.
  intros w Hc. split; [reflexivity |].
  rewrite !run_cons, run_nil.
  rewrite step_settle_awaiting by exact Hc.
  apply state_execute_resume.
Qed.

(** X5: as long as no transport promise rejects, [loading] is true only
    while the latest invocation is suspended: the installed controller is
    that of an invocation awaiting its transport promise. *)
Theorem loading_has_request_in_flight autoFetch evs :
  let w := run initialOptions evs
               (useFetch (T:=T) initialOptions autoFetch) in
  Forall within_contract evs →
  loading (state w) = true →
  ∃ c, abortControllerRef w = Some c ∧ c ∈ awaiting w.
Proof.
  intros w Hall. subst w.
  apply (run_preserves_on within_contract loading_is_backed);
    [apply loading_is_backed_step | exact Hall |].
  unfold useFetch, effect. destruct (default false autoFetch).
  - rewrite execute_start_unfold. intros _. exists 0.
    split; [reflexivity | left].
  - intros Hl. discriminate Hl.
Qed.

(** X6: nothing catches a rejected transport promise: from any world, when
    the promise of a request just issued rejects, the promise returned by
    [execute] rejects with the same reason, the invocation is no longer
    suspended, and the state stays as the start of the request left it,
    [loading] true. *)
Theorem rejected_transport_leaves_loading overrideOptions reason w :
  let c := controllers w in
  let w' := run initialOptions
                [Execute overrideOptions; Settle c (Rejected reason)] w in
  state w' = mkState (data (state w)) true None
  ∧ (c ∉ awaiting w')
  ∧ promises w' !! c = Some (Rejected reason).
Proof.
  intros c w'. subst c w'. rewrite !run_cons, run_nil.
  rewrite step_settle_awaiting;
    [| unfold step; rewrite execute_start_unfold; left].
  unfold step. rewrite execute_start_unfold, execute_resume_unfold. simpl.
  repeat split.
  - intros [Hne _]%list_elem_of_filter. now apply Hne.
  - apply lookup_insert_eq.
Qed.

(** X7: [data] changes only when a transport promise is fulfilled or
    [reset] is called: any number of [execute] starts, cleanups and rejected
    transport promises leave the payload held before them in place. *)
Theorem data_survives_restarts evs w :
  Forall delivers_nothing evs →
  data (state (run initialOptions evs w)) = data (state w).
Proof.
  intros Hall.
  apply (run_preserves_on delivers_nothing
           (fun w' => data (state w') = data (state w)));
    [| exact Hall | reflexivity].
  intros ev w' Hev Hw'. now rewrite data_step.
Qed.

End further.

(** One step of a life adds a request exactly when it calls [execute]. *)
Lemma requests_lifecycle {T} (ls : list (Lifecycle T)) props (w : World T) :
  length (requests (lifecycle ls (props, w)).2)
  = length (requests w) + execute_calls props ls.
Proof.
  revert props w. induction ls as [|l ls IH]; intros props w; [simpl; lia |].
  change (lifecycle (l :: ls) (props, w))
    with (lifecycle ls (lifecycle_step l (props, w))).
  destruct l as [ev|next]; cbn [lifecycle_step fst snd]; rewrite IH.
  - change (step (options_value props) ev w)
      with (run (options_value props) [ev] w).
    rewrite requests_run. destruct ev; simpl; lia.
  - unfold rerender. cbn [execute_calls].
    destruct (deps_changed props next); cbn [andb]; [| lia].
    unfold effect. destruct (default false (autoFetch_arg next)); cbn [andb].
    + rewrite execute_start_unfold. cbn [snd requests].
      rewrite length_app. simpl.
      destruct (step_keeps_logs (options_value next) Cleanup w)
        as (_ & Hr & _); [done |].
      unfold step in Hr. rewrite Hr. lia.
    + destruct (step_keeps_logs (options_value next) Cleanup w)
        as (_ & Hr & _); [done |].
      unfold step in Hr. rewrite Hr. lia.
Qed.

(** X1: every call of [execute] calls [apiFetch] exactly once, whatever is
    already in flight, and nothing else calls it: over any life of the hook,
    re-renders included, the number of requests is the number of calls of
    [execute], those of the host and those of the effect, which calls it at
    mount and at every render that changes its dependencies, each time when
    [autoFetch] is true. *)
Theorem one_request_per_call {T} (props : Props) (ls : list (Lifecycle T)) :
  length (requests (lifecycle ls (mount (T:=T) props)).2)
  = (if default false (autoFetch_arg props) then 1 else 0)
    + execute_calls props ls.
Proof.
  unfold mount. rewrite requests_lifecycle. f_equal.
  unfold useFetch, effect. destruct (default false (autoFetch_arg props));
    [now rewrite execute_start_unfold | reflexivity].
Qed.

(** X8: a re-render that passes another options object while [autoFetch] is
    true runs the cleanup and the effect again: one more request goes out,
    with the new options, and the controller installed before is aborted
    twice, by the cleanup and by the start of [execute]. *)
Theorem rerender_refetches {T} (prev next : Props) (w : World T) :
  deps_changed prev next = true →
  default false (autoFetch_arg next) = true →
  requests (rerender prev next w)
  = requests w
      ++ [(controllers w,
           <["signal" := JSignal (controllers w)]> (options_value next))]
  ∧ aborts (rerender prev next w)
    = aborts w
        ++ match abortControllerRef w with Some n => [n; n] | None => [] end
  ∧ state (rerender prev next w) = mkState (data (state w)) true None.
Proof.
  intros Hdeps Hauto. unfold rerender, effect. rewrite Hdeps, Hauto.
  rewrite execute_start_unfold. unfold cleanup, abort_current.
  unfold merge_options, spread. rewrite (right_id_L ∅ (∪)).
  destruct (abortControllerRef w) eqn:E; simpl; rewrite E; repeat split.
  simpl. now rewrite <- app_assoc.
Qed.

(** X9: a re-render that passes another options object while [autoFetch] is
    off aborts the request [execute] has just started: the cleanup runs on
    the changed dependencies, the request stays suspended with its
    controller aborted, and no new request goes out. *)
Theorem rerender_aborts_request {T} (initialOptions : Options)
    (prev next : Props) overrideOptions (w : World T) :
  deps_changed prev next = true →
  default false (autoFetch_arg next) = false →
  let w1 := step initialOptions (Execute overrideOptions) w in
  let w2 := rerender prev next w1 in
  aborts w2 = aborts w1 ++ [controllers w]
  ∧ controllers w ∈ awaiting w2
  ∧ requests w2 = requests w1
  ∧ state w2 = state w1.
Proof.
  intros Hdeps Hauto w1 w2. subst w1 w2.
  unfold rerender, effect. rewrite Hdeps, Hauto.
  unfold step. rewrite execute_start_unfold.
  unfold cleanup, abort_current. simpl.
  repeat split. left.
Qed.

(** ** The further properties on concrete runs *)

(** X4 on the request of [one_in_flight]. *)
Lemma reset_then_settle_witness :
  0 ∈ awaiting one_in_flight
  ∧ state (step users_options Reset one_in_flight) = idle
  ∧ state (run users_options [Reset; Settle 0 (Fulfilled (Ok 7))]
               one_in_flight)
    = settled_state (Ok 7).
Proof.
  assert (H : 0 ∈ awaiting one_in_flight) by apply list_elem_of_here.
  split; [exact H |].
  exact (reset_then_settle users_options None [Execute None] 0 (Ok 7) H).
Defined.

(** X5 after two calls of [execute] and a cleanup, nothing settled. *)
Lemma loading_has_request_in_flight_witness :
  Forall (@within_contract nat) [Execute None; Execute None; Cleanup]
  ∧ loading (state (run users_options [Execute None; Execute None; Cleanup]
                        (useFetch (T:=nat) users_options None))) = true
  ∧ ∃ c,
      abortControllerRef
        (run users_options [Execute None; Execute None; Cleanup]
             (useFetch (T:=nat) users_options None)) = Some c
      ∧ c ∈ awaiting
              (run users_options [Execute None; Execute None; Cleanup]
                   (useFetch (T:=nat) users_options None)).
Proof.
  assert (H : Forall (@within_contract nat)
                [Execute None; Execute None; Cleanup])
    by (repeat constructor).
  split; [exact H |]. split; [reflexivity |].
  exact (loading_has_request_in_flight users_options None
           [Execute None; Execute None; Cleanup] H eq_refl).
Defined.

(** X7 on a hook that holds the payload 7. *)
Lemma data_survives_restarts_witness :
  Forall (@delivers_nothing nat)
    [Execute None; Cleanup; Execute None; Settle 1 (Rejected "offline")]
  ∧ data (state (run users_options
                     [Execute None; Cleanup; Execute None;
                      Settle 1 (Rejected "offline")] loaded))
    = data (state loaded).
Proof.
  assert (H : Forall (@delivers_nothing nat)
                [Execute None; Cleanup; Execute None;
                 Settle 1 (Rejected "offline")])
    by (repeat constructor).
  split; [exact H |].
  exact (data_survives_restarts users_options _ loaded H).
Defined.

(** X8 on a hook mounted with [autoFetch] and re-rendered with an options
    literal. *)
Lemma rerender_refetches_witness :
  deps_changed first_render_auto second_render_auto = true
  ∧ default false (autoFetch_arg second_render_auto) = true
  ∧ requests (rerender first_render_auto second_render_auto
                       (useFetch (T:=nat) users_options (Some true)))
    = requests (useFetch (T:=nat) users_options (Some true))
        ++ [(1, <["signal" := JSignal 1]> users_options)]
  ∧ aborts (rerender first_render_auto second_render_auto
                     (useFetch (T:=nat) users_options (Some true)))
    = [0; 0]
  ∧ state (rerender first_render_auto second_render_auto
                    (useFetch (T:=nat) users_options (Some true)))
    = mkState None true None.
Proof.
  split; [reflexivity |]. split; [reflexivity |].
  exact (rerender_refetches first_render_auto second_render_auto
           (useFetch (T:=nat) users_options (Some true)) eq_refl eq_refl).
Defined.

(** X9 on a manual hook re-rendered with an options literal right after
    [execute()]. *)
Lemma rerender_aborts_request_witness :
  deps_changed first_render second_render = true
  ∧ default false (autoFetch_arg second_render) = false
  ∧ aborts (rerender first_render second_render one_in_flight) = [0]
  ∧ 0 ∈ awaiting (rerender first_render second_render one_in_flight)
  ∧ requests (rerender first_render second_render one_in_flight)
    = requests one_in_flight
  ∧ state (rerender first_render second_render one_in_flight)
    = state one_in_flight.
Proof.
  split; [reflexivity |]. split; [reflexivity |].
  exact (rerender_aborts_request users_options first_render second_render
           None (useFetch (T:=nat) users_options None) eq_refl eq_refl).
Defined.

(** Requests without a call of the host: mounted without [autoFetch], the
    host calls [execute] once and then renders with [autoFetch] true; or
    mounted with [autoFetch], it renders with another options object. *)
Example requests_of_the_effect :
  length (requests
            (lifecycle [Act (Execute None);
                        Render (mkProps 0 users_options (Some true))]
                       (mount (T:=nat) first_render)).2) = 2
  ∧ length (requests
              (lifecycle [Render second_render_auto]
                         (mount (T:=nat) first_render_auto)).2) = 2.
Proof. split; reflexivity. Qed.
